(** * discord-logs: the guildMemberUpdate handler

    A shallow embedding of [src/handlers/guildMemberUpdate.ts].  The handler
    receives the client, the member as it was before the update and the member
    as it is after it, compares a handful of fields and re-emits finer events
    on the client; when no comparison fired it emits one fallback event.

    The handler only reads the two members and calls [client.emit]; the client
    is therefore modelled by the log of what has been emitted on it, and the
    handler body runs in a small state monad over that log and the local
    variable [emitted].  What the listeners registered on the client do when an
    event reaches them is outside this file. *)

From Stdlib Require Import ZArith.
From stdpp Require Import base option list sets sorting strings.

#[local] Set Warnings "-clear-no-such-hyp".

(** ** JavaScript values the handler looks at *)

(** [if (x)] and [!x] go through ToBoolean: [null] is falsy, the empty string
    is falsy, every other string and every object is truthy. *)
Class ToBoolean (A : Type) := toBoolean : A → bool.

#[global] Instance string_toBoolean : ToBoolean string :=
  λ s, match s with EmptyString => false | String _ _ => true end.

(** [T | null] *)
#[global] Instance nullable_toBoolean `{ToBoolean A} : ToBoolean (option A) :=
  λ o, match o with None => false | Some a => toBoolean a end.

(** [a !== b] on primitives ([boolean], [string | null]): comparison by value. *)
Definition strictNe `{EqDecision A} (a b : A) : bool := bool_decide (a ≠ b).
Infix "!==" := strictNe (at level 70, no associativity).

(** ** What the handler uses of discord.js *)

Definition Snowflake := string.

(** A [Date] is an object, hence always truthy. *)
Record Date := { getTime : Z }.

#[global] Instance Date_toBoolean : ToBoolean Date := λ _, true.

Module Role.
Record t := { id : Snowflake; name : string }.
End Role.
Abbreviation Role := Role.t.

(** [Collection<Snowflake, Role>] extends the JavaScript [Map]: entries are
    kept in insertion order and [forEach] visits the values in that order. *)
Definition Collection := list (Snowflake * Role).

Definition keys (c : Collection) : list Snowflake := c.*1.
Definition values (c : Collection) : list Role := c.*2.
Definition has (c : Collection) (k : Snowflake) : bool := bool_decide (k ∈ keys c).

(** What a [Map] guarantees (no two entries under one key) and what discord.js
    guarantees for a role cache (a role is stored under its own id). *)
Definition role_cache (c : Collection) : Prop :=
  NoDup (keys c) ∧ Forall (λ kr, kr.1 = Role.id kr.2) c.

#[global] Instance role_cache_dec c : Decision (role_cache c).
Proof. unfold role_cache. apply _. Defined.

Record GuildMemberRoleManager := { cache : Collection }.

(** [GuildMember | PartialGuildMember], with the fields the handler reads.
    [avatarURL] stands for the result of the call [member.avatarURL()] on this
    snapshot; the method belongs to discord.js and takes no argument here. *)
Record GuildMember := {
  partial : bool;
  premiumSince : option Date;
  roles : GuildMemberRoleManager;
  nickname : option string;
  pending : bool;
  avatar : option string;
  avatarURL : option string
}.

(** ** Events *)

(** The arguments handed to [client.emit] after the event name. *)
Inductive Value :=
  | VMember (m : GuildMember)
  | VRole (r : Role)
  | VString (s : option string).

Record Emission := { eventName : string; args : list Value }.

Definition event (name : string) (payload : list Value) : Emission :=
  {| eventName := name; args := payload |}.

(** The client, seen from the handler: what has been emitted on it so far,
    oldest first. *)
Definition Client := list Emission.

(** ** The handler's effects *)

Record Frame := { client : Client; emitted : bool }.

Definition Handler (A : Type) : Type := Frame → A * Frame.

#[global] Instance Handler_ret : MRet Handler := λ A a s, (a, s).
#[global] Instance Handler_bind : MBind Handler :=
  λ A B f m s, let '(a, s') := m s in f a s'.

(** [client.emit(name, ...args)] *)
Definition emit (name : string) (payload : list Value) : Handler unit :=
  λ s, (tt, {| client := client s ++ [event name payload];
               emitted := emitted s |}).

(** [emitted = b] *)
Definition set_emitted (b : bool) : Handler unit :=
  λ s, (tt, {| client := client s; emitted := b |}).

Definition get_emitted : Handler bool := λ s, (emitted s, s).

(** [if (c) { body }] *)
Definition when (c : bool) (body : Handler unit) : Handler unit :=
  if c then body else mret tt.

(** [xs.forEach((x) => { body })] *)
Fixpoint forEach {A} (xs : list A) (body : A → Handler unit) : Handler unit :=
  match xs with
  | [] => mret tt
  | x :: xs' => body x ;; forEach xs' body
  end.

(** [const out = []; c.forEach((role) => { if (keep(role)) out.push(role) })] *)
Definition pushEach (c : Collection) (keep : Role → bool) : list Role :=
  fold_left (λ out role, if keep role then out ++ [role] else out) (values c) [].

(** ** [handleGuildMemberUpdateEvent] *)

(** The block guarded by [if (!oldMember.partial)], lines 14 to 152. *)
Definition fieldChecks (oldMember newMember : GuildMember) : Handler unit :=
  when (negb (toBoolean (premiumSince oldMember)) && toBoolean (premiumSince newMember)) (
    emit "guildMemberBoost" [VMember newMember];;
    set_emitted true);;
  when (toBoolean (premiumSince oldMember) && negb (toBoolean (premiumSince newMember))) (
    emit "guildMemberUnboost" [VMember newMember];;
    set_emitted true);;
  let addedRoles :=
    pushEach (cache (roles newMember))
             (λ role, negb (has (cache (roles oldMember)) (Role.id role))) in
  forEach addedRoles (λ role,
    emit "guildMemberRoleAdd" [VMember oldMember; VRole role];;
    set_emitted true);;
  let removedRoles :=
    pushEach (cache (roles oldMember))
             (λ role, negb (has (cache (roles newMember)) (Role.id role))) in
  forEach removedRoles (λ role,
    emit "guildMemberRoleRemove" [VMember oldMember; VRole role];;
    set_emitted true);;
  when (nickname oldMember !== nickname newMember) (
    emit "guildMemberNicknameUpdate"
         [VMember newMember; VString (nickname oldMember); VString (nickname newMember)];;
    set_emitted true);;
  when (pending oldMember !== pending newMember) (
    emit "guildMemberEntered" [VMember newMember];;
    set_emitted true);;
  when (negb (toBoolean (avatar oldMember)) && toBoolean (avatar newMember)) (
    emit "guildMemberAvatarAdd" [VMember newMember; VString (avatarURL newMember)];;
    set_emitted true);;
  when (avatar oldMember !== avatar newMember) (
    emit "guildMemberAvatarUpdate"
         [VMember newMember; VString (avatarURL oldMember); VString (avatarURL newMember)];;
    set_emitted true);;
  when (toBoolean (avatar oldMember) && negb (toBoolean (avatar newMember))) (
    emit "guildMemberAvatarRemove" [VMember newMember; VString (avatarURL oldMember)];;
    set_emitted true).

Definition handleGuildMemberUpdateEvent_body
    (oldMember newMember : GuildMember) : Handler unit :=
  when (negb (partial oldMember)) (fieldChecks oldMember newMember);;
  e ← get_emitted;
  when (negb e) (
    emit "unhandledGuildMemberUpdate" [VMember oldMember; VMember newMember]).

(** One call of the handler: [let emitted = false], then the body.  The result
    is the client afterwards. *)
Definition handleGuildMemberUpdateEvent
    (c : Client) (oldMember newMember : GuildMember) : Client :=
  client (handleGuildMemberUpdateEvent_body oldMember newMember
            {| client := c; emitted := false |}).2.

(** What one call emits, observed on a client with an empty log. *)
Definition invocation (oldMember newMember : GuildMember) : list Emission :=
  handleGuildMemberUpdateEvent [] oldMember newMember.

(** ** What one call emits, as a list

    Each check contributes a segment of emissions; the handler appends the
    segments in program order and sets [emitted] when a segment is not empty. *)

Definition fires (c : bool) (e : Emission) : list Emission :=
  if c then [e] else [].

Definition addedRoles (oldMember newMember : GuildMember) : list Role :=
  filter (λ role, Role.id role ∉ keys (cache (roles oldMember)))
         (values (cache (roles newMember))).

Definition removedRoles (oldMember newMember : GuildMember) : list Role :=
  filter (λ role, Role.id role ∉ keys (cache (roles newMember)))
         (values (cache (roles oldMember))).

(** The ten events with their payloads, as the handler builds them. *)
Definition boost (newMember : GuildMember) : Emission :=
  event "guildMemberBoost" [VMember newMember].

Definition unboost (newMember : GuildMember) : Emission :=
  event "guildMemberUnboost" [VMember newMember].

Definition roleAdd (oldMember : GuildMember) (role : Role) : Emission :=
  event "guildMemberRoleAdd" [VMember oldMember; VRole role].

Definition roleRemove (oldMember : GuildMember) (role : Role) : Emission :=
  event "guildMemberRoleRemove" [VMember oldMember; VRole role].

Definition nicknameUpdate (oldMember newMember : GuildMember) : Emission :=
  event "guildMemberNicknameUpdate"
        [VMember newMember; VString (nickname oldMember); VString (nickname newMember)].

Definition entered (newMember : GuildMember) : Emission :=
  event "guildMemberEntered" [VMember newMember].

Definition avatarAdd (newMember : GuildMember) : Emission :=
  event "guildMemberAvatarAdd" [VMember newMember; VString (avatarURL newMember)].

Definition avatarUpdate (oldMember newMember : GuildMember) : Emission :=
  event "guildMemberAvatarUpdate"
        [VMember newMember; VString (avatarURL oldMember); VString (avatarURL newMember)].

Definition avatarRemove (oldMember newMember : GuildMember) : Emission :=
  event "guildMemberAvatarRemove" [VMember newMember; VString (avatarURL oldMember)].

Definition fallback (oldMember newMember : GuildMember) : Emission :=
  event "unhandledGuildMemberUpdate" [VMember oldMember; VMember newMember].

Definition changes (oldMember newMember : GuildMember) : list Emission :=
  fires (negb (toBoolean (premiumSince oldMember)) && toBoolean (premiumSince newMember))
        (boost newMember) ++
  fires (toBoolean (premiumSince oldMember) && negb (toBoolean (premiumSince newMember)))
        (unboost newMember) ++
  (roleAdd oldMember <$> addedRoles oldMember newMember) ++
  (roleRemove oldMember <$> removedRoles oldMember newMember) ++
  fires (nickname oldMember !== nickname newMember) (nicknameUpdate oldMember newMember) ++
  fires (pending oldMember !== pending newMember) (entered newMember) ++
  fires (negb (toBoolean (avatar oldMember)) && toBoolean (avatar newMember))
        (avatarAdd newMember) ++
  fires (avatar oldMember !== avatar newMember) (avatarUpdate oldMember newMember) ++
  fires (toBoolean (avatar oldMember) && negb (toBoolean (avatar newMember)))
        (avatarRemove oldMember newMember).

(** [m] appends [seg] to the client's log and raises [emitted] when [seg] is
    not empty. *)
Definition appends (m : Handler unit) (seg : list Emission) : Prop :=
  ∀ s, m s = (tt, {| client := client s ++ seg;
                     emitted := emitted s || bool_decide (seg ≠ []) |}).

(** The emissions of one call, in order: the changes, or the fallback when
    there is none.  [handle_emissions] below proves that this is what the
    handler appends to the client. *)
Definition emissions (oldMember newMember : GuildMember) : list Emission :=
  let seg := if partial oldMember then [] else changes oldMember newMember in
  if bool_decide (seg ≠ []) then seg else [fallback oldMember newMember].

(** ** Reading a log *)

(** The nine events of the field checks. *)
Definition specificEvents : list string :=
  [ "guildMemberBoost"; "guildMemberUnboost"; "guildMemberRoleAdd";
    "guildMemberRoleRemove"; "guildMemberNicknameUpdate"; "guildMemberEntered";
    "guildMemberAvatarAdd"; "guildMemberAvatarUpdate"; "guildMemberAvatarRemove" ].

Definition named (name : string) (e : Emission) : Prop := eventName e = name.

#[global] Instance named_dec name e : Decision (named name e).
Proof. unfold named. apply _. Defined.

(** How many specific events, and how many fallback events, a log holds. *)
Definition specificFired (evs : list Emission) : nat :=
  length (filter (λ e, eventName e ∈ specificEvents) evs).

Definition fallbackFired (evs : list Emission) : nat :=
  length (filter (named "unhandledGuildMemberUpdate") evs).

(** The role a role event is about. *)
Definition roleOf (e : Emission) : option Role :=
  match args e with
  | [VMember _; VRole role] => Some role
  | _ => None
  end.

Definition aboutRole (name : string) (k : Snowflake) (e : Emission) : Prop :=
  eventName e = name ∧ Role.id <$> roleOf e = Some k.

#[global] Instance aboutRole_dec name k e : Decision (aboutRole name k e).
Proof. unfold aboutRole. apply _. Defined.

(** ** Sample members *)

Module Sample.

Definition roleA : Role := {| Role.id := "1001"; Role.name := "A" |}.
Definition roleB : Role := {| Role.id := "1002"; Role.name := "B" |}.
Definition roleC : Role := {| Role.id := "1003"; Role.name := "C" |}.

Definition cdn (hash : string) : string :=
  "https://cdn.discordapp.com/guilds/1/users/2/avatars/" +:+ hash +:+ ".webp".

Definition bob : GuildMember :=
  {| partial := false; premiumSince := None;
     roles := {| cache := [("1001", roleA); ("1002", roleB)] |};
     nickname := Some "Bob"; pending := false;
     avatar := Some "x"; avatarURL := Some (cdn "x") |}.

(** [bob] as a partial: only the flag matters to the handler. *)
Definition bob_partial : GuildMember :=
  {| partial := true; premiumSince := None;
     roles := {| cache := [] |};
     nickname := None; pending := false;
     avatar := None; avatarURL := None |}.

Definition bob_boosting : GuildMember :=
  {| partial := false; premiumSince := Some {| getTime := 1700000000000 |};
     roles := {| cache := [("1001", roleA); ("1002", roleB)] |};
     nickname := Some "Bob"; pending := false;
     avatar := Some "x"; avatarURL := Some (cdn "x") |}.

Definition bob_roles_BC : GuildMember :=
  {| partial := false; premiumSince := None;
     roles := {| cache := [("1002", roleB); ("1003", roleC)] |};
     nickname := Some "Bob"; pending := false;
     avatar := Some "x"; avatarURL := Some (cdn "x") |}.

Definition bob_no_nickname : GuildMember :=
  {| partial := false; premiumSince := None;
     roles := {| cache := [("1001", roleA); ("1002", roleB)] |};
     nickname := None; pending := false;
     avatar := Some "x"; avatarURL := Some (cdn "x") |}.

Definition bob_pending : GuildMember :=
  {| partial := false; premiumSince := None;
     roles := {| cache := [("1001", roleA); ("1002", roleB)] |};
     nickname := Some "Bob"; pending := true;
     avatar := Some "x"; avatarURL := Some (cdn "x") |}.

Definition bob_no_avatar : GuildMember :=
  {| partial := false; premiumSince := None;
     roles := {| cache := [("1001", roleA); ("1002", roleB)] |};
     nickname := Some "Bob"; pending := false;
     avatar := None; avatarURL := None |}.

End Sample.

(** ** The order and the subjects of a log *)

(** The ten events in the order of the handler's text. *)
Definition programOrder : list string :=
  specificEvents ++ ["unhandledGuildMemberUpdate"].

(** Where an event stands in that order; a name the handler never emits stands
    after all of them. *)
Definition position (name : string) : nat :=
  match list_find (λ n, n = name) programOrder with
  | Some (i, _) => i
  | None => length programOrder
  end.

Definition before (e1 e2 : Emission) : Prop :=
  position (eventName e1) ≤ position (eventName e2).

(** [l] is in program order and holds no event that stands before [p]. *)
Definition ordered_from (p : nat) (l : list Emission) : Prop :=
  StronglySorted before l ∧ Forall (λ e, p ≤ position (eventName e)) l.

(** The member an emission carries as its first argument. *)
Definition subject (e : Emission) : option GuildMember :=
  match args e with
  | VMember m :: _ => Some m
  | _ => None
  end.

(** The events whose first argument the handler takes from [oldMember]. *)
Definition aboutOldMember : list string :=
  ["guildMemberRoleAdd"; "guildMemberRoleRemove"; "unhandledGuildMemberUpdate"].

(** The event that the opposite update gives rise to. *)
Definition mirrored : list (string * string) :=
  [ ("guildMemberBoost", "guildMemberUnboost");
    ("guildMemberUnboost", "guildMemberBoost");
    ("guildMemberRoleAdd", "guildMemberRoleRemove");
    ("guildMemberRoleRemove", "guildMemberRoleAdd");
    ("guildMemberAvatarAdd", "guildMemberAvatarRemove");
    ("guildMemberAvatarRemove", "guildMemberAvatarAdd") ].

Definition mirror (name : string) : string :=
  match list_find (λ p, p.1 = name) mirrored with
  | Some (_, p) => p.2
  | None => name
  end.

(** ** More sample members *)

Module Edge.

Definition bob_boosting_later : GuildMember :=
  {| partial := false; premiumSince := Some {| getTime := 1800000000000 |};
     roles := {| cache := [("1001", Sample.roleA); ("1002", Sample.roleB)] |};
     nickname := Some "Bob"; pending := false;
     avatar := Some "x"; avatarURL := Some (Sample.cdn "x") |}.

Definition bob_avatar_y : GuildMember :=
  {| partial := false; premiumSince := None;
     roles := {| cache := [("1001", Sample.roleA); ("1002", Sample.roleB)] |};
     nickname := Some "Bob"; pending := false;
     avatar := Some "y"; avatarURL := Some (Sample.cdn "y") |}.

Definition bob_empty_avatar : GuildMember :=
  {| partial := false; premiumSince := None;
     roles := {| cache := [("1001", Sample.roleA); ("1002", Sample.roleB)] |};
     nickname := Some "Bob"; pending := false;
     avatar := Some ""; avatarURL := Some "" |}.

Definition bob_no_roles : GuildMember :=
  {| partial := false; premiumSince := None;
     roles := {| cache := [] |};
     nickname := Some "Bob"; pending := false;
     avatar := Some "x"; avatarURL := Some (Sample.cdn "x") |}.

End Edge.

(** ** The handler appends [emissions] *)

Section Appends.

Lemma appends_skip : appends (mret tt) [].
Proof.
  intros [c e]. cbn. by rewrite app_nil_r, orb_false_r.
Qed.

Lemma appends_seq m1 m2 seg1 seg2 :
  appends m1 seg1 → appends m2 seg2 → appends (m1 ;; m2) (seg1 ++ seg2).
Proof.
  intros H1 H2 s. unfold mbind, Handler_bind.
  rewrite H1, H2. cbn. rewrite <-app_assoc, <-orb_assoc.
  do 3 f_equal. destruct seg1, seg2; done.
Qed.

Lemma appends_emit name payload :
  appends (emit name payload ;; set_emitted true) [event name payload].
Proof.
  intros [c e]. cbn. by rewrite orb_true_r.
Qed.

Lemma appends_when c name payload :
  appends (when c (emit name payload ;; set_emitted true))
          (fires c (event name payload)).
Proof.
  destruct c; [apply appends_emit | apply appends_skip].
Qed.

Lemma appends_forEach {A} (xs : list A) name (payload : A → list Value) :
  appends (forEach xs (λ x, emit name (payload x) ;; set_emitted true))
          ((λ x, event name (payload x)) <$> xs).
Proof.
  induction xs as [|x xs IH]; [apply appends_skip|].
  apply (appends_seq _ _ [_]); [apply appends_emit | exact IH].
Qed.

End Appends.

(** The push loop keeps, in order, the roles that pass the test. *)
Lemma pushEach_filter c (keep : Role → bool) :
  pushEach c keep = filter (λ role, keep role) (values c).
Proof.
  unfold pushEach.
  enough (∀ l out, fold_left (λ out role, if keep role then out ++ [role] else out) l out
                   = out ++ filter (λ role, keep role) l) as H by apply H.
  induction l as [|role l IH]; intros out; cbn [fold_left].
  - by rewrite filter_nil, app_nil_r.
  - rewrite IH, filter_cons. destruct (keep role); cbn.
    + by rewrite <-app_assoc.
    + done.
Qed.

Lemma pushEach_absent c c' :
  pushEach c (λ role, negb (has c' (Role.id role)))
  = filter (λ role, Role.id role ∉ keys c') (values c).
Proof.
  rewrite pushEach_filter. apply list_filter_iff. intros role.
  unfold has. rewrite negb_True, bool_decide_spec. done.
Qed.

Lemma fieldChecks_appends oldMember newMember :
  appends (fieldChecks oldMember newMember) (changes oldMember newMember).
Proof.
  unfold fieldChecks, changes. cbv zeta.
  rewrite !pushEach_absent.
  repeat apply appends_seq; try apply appends_when.
  - apply (appends_forEach _ "guildMemberRoleAdd" (λ role, [VMember oldMember; VRole role])).
  - apply (appends_forEach _ "guildMemberRoleRemove" (λ role, [VMember oldMember; VRole role])).
Qed.

Lemma handle_emissions c oldMember newMember :
  handleGuildMemberUpdateEvent c oldMember newMember
  = c ++ emissions oldMember newMember.
Proof.
  unfold handleGuildMemberUpdateEvent, handleGuildMemberUpdateEvent_body, emissions.
  assert (appends (when (negb (partial oldMember)) (fieldChecks oldMember newMember))
                  (if partial oldMember then [] else changes oldMember newMember)) as H.
  { destruct (partial oldMember); [apply appends_skip | apply fieldChecks_appends]. }
  generalize dependent (if partial oldMember then [] else changes oldMember newMember).
  intros seg H. unfold mbind, Handler_bind. rewrite H. cbn.
  case_bool_decide as Hseg; cbn; [done|].
  subst seg. by rewrite app_nil_r.
Qed.

Lemma invocation_emissions oldMember newMember :
  invocation oldMember newMember = emissions oldMember newMember.
Proof. apply handle_emissions. Qed.

(** The handler run on the sample members. *)
Example roles_AB_to_BC :
  invocation Sample.bob Sample.bob_roles_BC
  = [roleAdd Sample.bob Sample.roleC; roleRemove Sample.bob Sample.roleA].
Proof. vm_compute. reflexivity. Qed.

Example avatar_x_to_null :
  invocation Sample.bob Sample.bob_no_avatar
  = [avatarUpdate Sample.bob Sample.bob_no_avatar;
     avatarRemove Sample.bob Sample.bob_no_avatar].
Proof. vm_compute. reflexivity. Qed.

Example avatar_null_to_x :
  invocation Sample.bob_no_avatar Sample.bob
  = [avatarAdd Sample.bob; avatarUpdate Sample.bob_no_avatar Sample.bob].
Proof. vm_compute. reflexivity. Qed.

Example boost_and_nickname :
  invocation Sample.bob_boosting Sample.bob_no_nickname
  = [unboost Sample.bob_no_nickname;
     nicknameUpdate Sample.bob_boosting Sample.bob_no_nickname].
Proof. vm_compute. reflexivity. Qed.

Example nothing_changed :
  invocation Sample.bob Sample.bob = [fallback Sample.bob Sample.bob].
Proof. vm_compute. reflexivity. Qed.

Example second_call_on_same_client :
  eventName <$> handleGuildMemberUpdateEvent
                  (invocation Sample.bob Sample.bob_pending)
                  Sample.bob_pending Sample.bob_roles_BC
  = ["guildMemberEntered"; "guildMemberRoleAdd"; "guildMemberRoleRemove";
     "guildMemberEntered"].
Proof. vm_compute. reflexivity. Qed.

(** ** Lemmas on logs *)

Section Logs.

Context {A : Type} (P : A → Prop) `{!∀ x, Decision (P x)}.

Lemma filter_all (l : list A) : Forall P l → filter P l = l.
Proof.
  induction 1 as [|x l Hx _ IH]; [done|].
  rewrite filter_cons_True by done. by f_equal.
Qed.

Lemma filter_none (l : list A) : Forall (λ x, ¬ P x) l → filter P l = [].
Proof.
  induction 1 as [|x l Hx _ IH]; [done|].
  rewrite filter_cons_False by done. exact IH.
Qed.

End Logs.

Lemma elem_of_fires e c e' : e ∈ fires c e' ↔ c = true ∧ e = e'.
Proof.
  destruct c; cbn.
  - rewrite list_elem_of_singleton. naive_solver.
  - rewrite elem_of_nil. naive_solver.
Qed.

Lemma Forall_fires (P : Emission → Prop) c e : P e → Forall P (fires c e).
Proof. destruct c; cbn; auto. Qed.

Lemma changes_specific oldMember newMember :
  Forall (λ e, eventName e ∈ specificEvents) (changes oldMember newMember).
Proof.
  unfold changes, specificEvents.
  repeat (apply Forall_app; split);
    try (apply Forall_fires; cbn; set_solver);
    apply Forall_fmap, Forall_true; intros role; cbn; set_solver.
Qed.

Lemma changes_not_fallback oldMember newMember :
  Forall (λ e, ¬ named "unhandledGuildMemberUpdate" e) (changes oldMember newMember).
Proof.
  eapply Forall_impl; [apply changes_specific|].
  unfold named, specificEvents. intros e He Hn. cbn beta in He.
  rewrite Hn in He. set_solver.
Qed.

Lemma emissions_partial oldMember newMember :
  partial oldMember = true →
  emissions oldMember newMember = [fallback oldMember newMember].
Proof. unfold emissions. by intros ->. Qed.

Lemma emissions_changes oldMember newMember :
  partial oldMember = false →
  changes oldMember newMember ≠ [] →
  emissions oldMember newMember = changes oldMember newMember.
Proof. unfold emissions. intros -> H. by rewrite bool_decide_eq_true_2. Qed.

Lemma emissions_unchanged oldMember newMember :
  changes oldMember newMember = [] →
  emissions oldMember newMember = [fallback oldMember newMember].
Proof. unfold emissions. intros ->. by destruct (partial oldMember). Qed.

Lemma emissions_cases oldMember newMember :
  (partial oldMember = false ∧ changes oldMember newMember ≠ []
   ∧ emissions oldMember newMember = changes oldMember newMember)
  ∨ emissions oldMember newMember = [fallback oldMember newMember].
Proof.
  destruct (partial oldMember) eqn:Hp; [right; by apply emissions_partial|].
  destruct (decide (changes oldMember newMember = [])) as [Hc|Hc].
  - right. by apply emissions_unchanged.
  - left. auto using emissions_changes.
Qed.

(** ** The fallback rule *)

Lemma specificFired_changes oldMember newMember :
  specificFired (changes oldMember newMember) = length (changes oldMember newMember).
Proof. unfold specificFired. by rewrite filter_all by apply changes_specific. Qed.

Lemma fallbackFired_changes oldMember newMember :
  fallbackFired (changes oldMember newMember) = 0.
Proof. unfold fallbackFired. by rewrite filter_none by apply changes_not_fallback. Qed.

(** C1. Every call of the handler emits either one or more specific events, or
    exactly one [unhandledGuildMemberUpdate]: one of the two always holds, and
    never both.  More precisely, either specific events fired and no fallback
    did, or no specific event fired and the fallback fired once. *)
Theorem specific_xor_fallback oldMember newMember :
  let evs := invocation oldMember newMember in
  (1 ≤ specificFired evs ∨ fallbackFired evs = 1)
  ∧ ¬ (1 ≤ specificFired evs ∧ fallbackFired evs = 1)
  ∧ ((1 ≤ specificFired evs ∧ fallbackFired evs = 0)
     ∨ (specificFired evs = 0 ∧ fallbackFired evs = 1)).
Proof.
  cbv zeta. rewrite invocation_emissions.
  destruct (emissions_cases oldMember newMember) as [(_ & Hne & ->) | ->].
  - rewrite specificFired_changes, fallbackFired_changes.
    destruct (changes oldMember newMember); [done|]. cbn. lia.
  - change (specificFired [fallback oldMember newMember]) with 0.
    change (fallbackFired [fallback oldMember newMember]) with 1. lia.
Qed.

(** C2. When the old member is a partial, no field is compared: the call emits
    [unhandledGuildMemberUpdate] once, with the old and the new member, and
    nothing else, whatever the fields of the two members are. *)
Theorem partial_only_fallback oldMember newMember :
  partial oldMember = true →
  invocation oldMember newMember = [fallback oldMember newMember]
  ∧ fallbackFired (invocation oldMember newMember) = 1
  ∧ specificFired (invocation oldMember newMember) = 0.
Proof.
  intros Hp. rewrite invocation_emissions, emissions_partial by done. done.
Qed.

Lemma partial_only_fallback_witness :
  partial Sample.bob_partial = true
  ∧ invocation Sample.bob_partial Sample.bob_boosting
    = [fallback Sample.bob_partial Sample.bob_boosting].
Proof.
  split; [reflexivity|].
  apply (partial_only_fallback Sample.bob_partial Sample.bob_boosting). reflexivity.
Defined.

(** ** Role caches *)

Lemma role_cache_keys c : role_cache c → Role.id <$> values c = keys c.
Proof.
  intros [_ Hid]. unfold values, keys. rewrite <-list_fmap_compose.
  apply Forall_fmap_ext. eapply Forall_impl; [exact Hid|]. by intros [k role].
Qed.

Lemma role_cache_id c role : role_cache c → role ∈ values c → Role.id role ∈ keys c.
Proof.
  intros Hc Hrole. rewrite <-(role_cache_keys c Hc).
  by apply list_elem_of_fmap_2.
Qed.

(** No role of [c] is missing from [c'] when every key of [c] is a key of [c']. *)
Lemma no_role_missing c c' :
  role_cache c → (∀ k, k ∈ keys c → k ∈ keys c') →
  filter (λ role, Role.id role ∉ keys c') (values c) = [].
Proof.
  intros Hc Hsub. apply filter_none, Forall_forall.
  intros role Hrole Hnot. apply Hnot, Hsub. by apply role_cache_id.
Qed.

Lemma strictNe_refl `{EqDecision A} (a : A) : (a !== a) = false.
Proof. unfold strictNe. by apply bool_decide_eq_false_2; intros []. Qed.

Lemma strictNe_true `{EqDecision A} (a b : A) : (a !== b) = true ↔ a ≠ b.
Proof. unfold strictNe. apply bool_decide_eq_true. Qed.

(** C3. When the old member is not a partial and the two members agree on the
    boost timestamp, the set of role ids, the nickname, the pending flag and the
    avatar id, the call emits [unhandledGuildMemberUpdate] once and nothing
    else. *)
Theorem unchanged_only_fallback oldMember newMember :
  partial oldMember = false →
  role_cache (cache (roles oldMember)) →
  role_cache (cache (roles newMember)) →
  premiumSince oldMember = premiumSince newMember →
  (∀ k, k ∈ keys (cache (roles oldMember)) ↔ k ∈ keys (cache (roles newMember))) →
  nickname oldMember = nickname newMember →
  pending oldMember = pending newMember →
  avatar oldMember = avatar newMember →
  invocation oldMember newMember = [fallback oldMember newMember]
  ∧ fallbackFired (invocation oldMember newMember) = 1
  ∧ specificFired (invocation oldMember newMember) = 0.
Proof.
  intros _ Hold Hnew Hboost Hroles Hnick Hpending Havatar.
  rewrite invocation_emissions.
  enough (changes oldMember newMember = []) as H
    by (by rewrite (emissions_unchanged _ _ H)).
  unfold changes, addedRoles, removedRoles.
  rewrite Hboost, Hnick, Hpending, Havatar, !strictNe_refl.
  rewrite (no_role_missing _ _ Hnew) by (intros k; apply Hroles).
  rewrite (no_role_missing _ _ Hold) by (intros k; apply Hroles).
  rewrite andb_negb_l, andb_negb_r, andb_negb_l, andb_negb_r. done.
Qed.

Lemma unchanged_only_fallback_witness :
  partial Sample.bob = false
  ∧ role_cache (cache (roles Sample.bob))
  ∧ invocation Sample.bob Sample.bob = [fallback Sample.bob Sample.bob].
Proof.
  assert (role_cache (cache (roles Sample.bob))) as Hc by (vm_compute; compute_done).
  split; [reflexivity|]. split; [exact Hc|].
  apply (unchanged_only_fallback Sample.bob Sample.bob); done.
Defined.

(** ** Which check an emission comes from *)

Lemma elem_of_changes e oldMember newMember :
  e ∈ changes oldMember newMember ↔
    (negb (toBoolean (premiumSince oldMember)) && toBoolean (premiumSince newMember) = true
       ∧ e = boost newMember)
    ∨ (toBoolean (premiumSince oldMember) && negb (toBoolean (premiumSince newMember)) = true
       ∧ e = unboost newMember)
    ∨ (∃ role, e = roleAdd oldMember role ∧ role ∈ addedRoles oldMember newMember)
    ∨ (∃ role, e = roleRemove oldMember role ∧ role ∈ removedRoles oldMember newMember)
    ∨ ((nickname oldMember !== nickname newMember) = true
       ∧ e = nicknameUpdate oldMember newMember)
    ∨ ((pending oldMember !== pending newMember) = true ∧ e = entered newMember)
    ∨ (negb (toBoolean (avatar oldMember)) && toBoolean (avatar newMember) = true
       ∧ e = avatarAdd newMember)
    ∨ ((avatar oldMember !== avatar newMember) = true ∧ e = avatarUpdate oldMember newMember)
    ∨ (toBoolean (avatar oldMember) && negb (toBoolean (avatar newMember)) = true
       ∧ e = avatarRemove oldMember newMember).
Proof.
  unfold changes. by rewrite !elem_of_app, !elem_of_fires, !list_elem_of_fmap.
Qed.

Lemma elem_of_emissions e oldMember newMember :
  e ∈ emissions oldMember newMember ↔
    (partial oldMember = false ∧ e ∈ changes oldMember newMember)
    ∨ ((partial oldMember = true ∨ changes oldMember newMember = [])
       ∧ e = fallback oldMember newMember).
Proof.
  destruct (partial oldMember) eqn:Hp.
  - rewrite emissions_partial, list_elem_of_singleton by done. naive_solver.
  - destruct (decide (changes oldMember newMember = [])) as [Hc|Hc].
    + rewrite emissions_unchanged, list_elem_of_singleton, Hc by done.
      rewrite elem_of_nil. naive_solver.
    + rewrite emissions_changes by done. naive_solver.
Qed.

(** A change that fired is in the log of the call, and the fallback is not. *)
Lemma change_fired e oldMember newMember :
  partial oldMember = false →
  e ∈ changes oldMember newMember →
  e ∈ invocation oldMember newMember
  ∧ invocation oldMember newMember = changes oldMember newMember.
Proof.
  intros Hp He. rewrite invocation_emissions, emissions_changes; [done..|].
  intros Hnil. rewrite Hnil in He. by apply elem_of_nil in He.
Qed.

(** Find the check an emission of [changes] comes from by its name: the goal
    [e ∈ changes _ _ → eventName e = name → _] is left with the one check that
    emits [name], its condition in [H]. *)
Ltac which_check H :=
  let Hn := fresh "Hn" in
  rewrite elem_of_changes;
  intros [[H ->]|[[H ->]|[[? [-> H]]|[[? [-> H]]|[[H ->]|[[H ->]|[[H ->]|[[H ->]|[H ->]]]]]]]]];
  cbn; intros Hn; try discriminate Hn.

Lemma toBoolean_ne (a b : option string) :
  toBoolean a ≠ toBoolean b → a ≠ b.
Proof. by intros H ->. Qed.

(** ** Boost *)

(** C8. When the old member is not a partial, has no boost timestamp, and the
    new member has one, the call emits [guildMemberBoost] with the new member
    and emits no [unhandledGuildMemberUpdate]. *)
Theorem boost_started oldMember newMember :
  partial oldMember = false →
  premiumSince oldMember = None →
  is_Some (premiumSince newMember) →
  let evs := invocation oldMember newMember in
  boost newMember ∈ evs
  ∧ fallbackFired evs = 0
  ∧ ∀ e, e ∈ evs → eventName e ≠ "unhandledGuildMemberUpdate".
Proof.
  intros Hp Hold [since Hnew]. cbv zeta.
  destruct (change_fired (boost newMember) oldMember newMember Hp) as [Hin Heq].
  { apply elem_of_changes. left. by rewrite Hold, Hnew. }
  split; [exact Hin|]. rewrite Heq. split; [apply fallbackFired_changes|].
  intros e He.
  exact (proj1 (Forall_forall _ _) (changes_not_fallback oldMember newMember) e He).
Qed.

Lemma boost_started_witness :
  partial Sample.bob = false
  ∧ premiumSince Sample.bob = None
  ∧ is_Some (premiumSince Sample.bob_boosting)
  ∧ boost Sample.bob_boosting ∈ invocation Sample.bob Sample.bob_boosting.
Proof.
  assert (is_Some (premiumSince Sample.bob_boosting)) as Hnew by (cbn; eauto).
  repeat split; [exact Hnew|].
  apply (boost_started Sample.bob Sample.bob_boosting); [reflexivity..|exact Hnew].
Defined.

(** ** Nickname *)

(** C6. When the old member is not a partial and its nickname is not strictly
    equal to the new one (either may be [null]), the call emits
    [guildMemberNicknameUpdate] with the new member, the old nickname and the
    new nickname; from ["Bob"] to [null] the payload carries ["Bob"] and
    [null]. *)
Theorem nickname_changed oldMember newMember :
  partial oldMember = false →
  (nickname oldMember ≠ nickname newMember →
   event "guildMemberNicknameUpdate"
     [VMember newMember; VString (nickname oldMember); VString (nickname newMember)]
   ∈ invocation oldMember newMember)
  ∧ (nickname oldMember = Some "Bob" → nickname newMember = None →
     event "guildMemberNicknameUpdate" [VMember newMember; VString (Some "Bob"); VString None]
     ∈ invocation oldMember newMember).
Proof.
  intros Hp.
  assert (nickname oldMember ≠ nickname newMember →
          nicknameUpdate oldMember newMember ∈ invocation oldMember newMember) as H.
  { intros Hne. apply change_fired; [done|].
    apply elem_of_changes. do 4 right. left. by rewrite strictNe_true. }
  split; [exact H|].
  intros Hold Hnew. unfold nicknameUpdate in H. rewrite Hold, Hnew in H. by apply H.
Qed.

Lemma nickname_changed_witness :
  partial Sample.bob = false
  ∧ nickname Sample.bob = Some "Bob"
  ∧ nickname Sample.bob_no_nickname = None
  ∧ event "guildMemberNicknameUpdate"
      [VMember Sample.bob_no_nickname; VString (Some "Bob"); VString None]
    ∈ invocation Sample.bob Sample.bob_no_nickname.
Proof.
  repeat split.
  apply (nickname_changed Sample.bob Sample.bob_no_nickname); reflexivity.
Defined.

(** ** Pending flag *)

Lemma entered_only oldMember newMember e :
  e ∈ changes oldMember newMember →
  eventName e = "guildMemberEntered" →
  pending oldMember ≠ pending newMember ∧ e = entered newMember.
Proof.
  which_check H.
  split; [by apply strictNe_true | done].
Qed.

(** C7. When the old member is not a partial, the call emits
    [guildMemberEntered] with the new member if and only if the pending flag of
    the old member differs from that of the new one; it does so when the flag
    goes from [false] to [true] and when it goes from [true] to [false]. *)
Theorem entered_iff_pending_flipped oldMember newMember :
  partial oldMember = false →
  let evs := invocation oldMember newMember in
  (entered newMember ∈ evs ↔ pending oldMember ≠ pending newMember)
  ∧ ((∃ e, e ∈ evs ∧ eventName e = "guildMemberEntered")
     ↔ pending oldMember ≠ pending newMember)
  ∧ (pending oldMember = false → pending newMember = true → entered newMember ∈ evs)
  ∧ (pending oldMember = true → pending newMember = false → entered newMember ∈ evs).
Proof.
  intros Hp. cbv zeta.
  assert (pending oldMember ≠ pending newMember →
          entered newMember ∈ invocation oldMember newMember) as Hfire.
  { intros Hne. apply change_fired; [done|].
    apply elem_of_changes. do 5 right. left. by rewrite strictNe_true. }
  assert (∀ e, e ∈ invocation oldMember newMember →
               eventName e = "guildMemberEntered" →
               pending oldMember ≠ pending newMember) as Honly.
  { intros e. rewrite invocation_emissions, elem_of_emissions.
    intros [[_ He]|[_ ->]] Hn; [|discriminate Hn].
    by destruct (entered_only _ _ _ He Hn). }
  repeat split.
  - intros He. by apply (Honly _ He).
  - exact Hfire.
  - intros (e & He & Hn). by apply (Honly e).
  - intros Hne. exists (entered newMember). split; [by apply Hfire | done].
  - intros Hold Hnew. apply Hfire. by rewrite Hold, Hnew.
  - intros Hold Hnew. apply Hfire. by rewrite Hold, Hnew.
Qed.

Lemma entered_iff_pending_flipped_witness :
  partial Sample.bob = false
  ∧ entered Sample.bob_pending ∈ invocation Sample.bob Sample.bob_pending
  ∧ entered Sample.bob ∈ invocation Sample.bob_pending Sample.bob
  ∧ ¬ entered Sample.bob ∈ invocation Sample.bob Sample.bob.
Proof.
  split; [reflexivity|].
  destruct (entered_iff_pending_flipped Sample.bob Sample.bob_pending eq_refl)
    as (_ & _ & Hup & _).
  destruct (entered_iff_pending_flipped Sample.bob_pending Sample.bob eq_refl)
    as (_ & _ & _ & Hdown).
  destruct (entered_iff_pending_flipped Sample.bob Sample.bob eq_refl)
    as (Hsame & _).
  split; [exact (Hup eq_refl eq_refl)|].
  split; [exact (Hdown eq_refl eq_refl)|].
  intros H. by apply Hsame in H.
Defined.

(** ** Avatar *)

(** An avatar id that [if (x)] rejects is never strictly equal to one that it
    accepts. *)
Lemma avatar_falsy_truthy_ne (a b : option string) :
  toBoolean a = false → toBoolean b = true → a ≠ b.
Proof. intros Ha Hb. apply toBoolean_ne. by rewrite Ha, Hb. Qed.

(** C4. When the old member is not a partial, has an avatar id (one that the
    handler's test [oldMember.avatar] accepts, such as ["x"]) and the new member
    has none, the same call emits [guildMemberAvatarUpdate] with the new member,
    the old avatar URL and the new avatar URL, and [guildMemberAvatarRemove]
    with the new member and the old avatar URL; they are the last two emissions
    of the call. *)
Theorem avatar_removed_fires_both oldMember newMember :
  partial oldMember = false →
  toBoolean (avatar oldMember) = true →
  toBoolean (avatar newMember) = false →
  let evs := invocation oldMember newMember in
  event "guildMemberAvatarUpdate"
    [VMember newMember; VString (avatarURL oldMember); VString (avatarURL newMember)] ∈ evs
  ∧ event "guildMemberAvatarRemove" [VMember newMember; VString (avatarURL oldMember)] ∈ evs
  ∧ ∃ before,
      evs = before ++ [avatarUpdate oldMember newMember; avatarRemove oldMember newMember].
Proof.
  intros Hp Hold Hnew. cbv zeta.
  assert ((avatar oldMember !== avatar newMember) = true) as Hne.
  { apply strictNe_true. intros Heq. symmetry in Heq. revert Heq.
    by apply avatar_falsy_truthy_ne. }
  destruct (change_fired (avatarUpdate oldMember newMember) oldMember newMember Hp)
    as [Hupd Heq].
  { apply elem_of_changes. do 7 right. left. done. }
  split; [exact Hupd|]. split.
  - apply change_fired; [done|].
    apply elem_of_changes. do 8 right. by rewrite Hold, Hnew.
  - rewrite Heq. unfold changes. rewrite Hne, Hold, Hnew. cbn [negb andb fires app].
    rewrite !app_assoc. by eexists.
Qed.

Lemma avatar_removed_fires_both_witness :
  partial Sample.bob = false
  ∧ avatar Sample.bob = Some "x"
  ∧ avatar Sample.bob_no_avatar = None
  ∧ avatarUpdate Sample.bob Sample.bob_no_avatar
    ∈ invocation Sample.bob Sample.bob_no_avatar
  ∧ avatarRemove Sample.bob Sample.bob_no_avatar
    ∈ invocation Sample.bob Sample.bob_no_avatar.
Proof.
  do 3 (split; [reflexivity|]).
  destruct (avatar_removed_fires_both Sample.bob Sample.bob_no_avatar
              eq_refl eq_refl eq_refl) as (Hupd & Hrem & _).
  split; [exact Hupd | exact Hrem].
Defined.

Lemma avatarAdd_only oldMember newMember e :
  e ∈ changes oldMember newMember →
  eventName e = "guildMemberAvatarAdd" →
  toBoolean (avatar oldMember) = false ∧ toBoolean (avatar newMember) = true.
Proof.
  which_check H.
  apply andb_true_iff in H as [Hold Hnew]. by apply negb_true_iff in Hold.
Qed.

(** C10. Whenever a call emits [guildMemberAvatarAdd], the old avatar id fails
    the handler's test and the new one passes it, so the two are not strictly
    equal and the same call also emits [guildMemberAvatarUpdate].  This holds
    for every pair of members; with a partial old member no
    [guildMemberAvatarAdd] is emitted at all. *)
Theorem avatar_add_implies_update oldMember newMember e :
  e ∈ invocation oldMember newMember →
  eventName e = "guildMemberAvatarAdd" →
  partial oldMember = false
  ∧ toBoolean (avatar oldMember) = false
  ∧ toBoolean (avatar newMember) = true
  ∧ avatar oldMember ≠ avatar newMember
  ∧ event "guildMemberAvatarUpdate"
      [VMember newMember; VString (avatarURL oldMember); VString (avatarURL newMember)]
    ∈ invocation oldMember newMember.
Proof.
  rewrite invocation_emissions at 1. rewrite elem_of_emissions.
  intros [[Hp He]|[_ ->]] Hn; [|discriminate Hn].
  destruct (avatarAdd_only _ _ _ He Hn) as [Hold Hnew].
  pose proof (avatar_falsy_truthy_ne _ _ Hold Hnew) as Hne.
  repeat split; try done.
  apply change_fired; [done|].
  apply elem_of_changes. do 7 right. left. by rewrite strictNe_true.
Qed.

Lemma avatar_add_implies_update_witness :
  avatarAdd Sample.bob ∈ invocation Sample.bob_no_avatar Sample.bob
  ∧ avatarUpdate Sample.bob_no_avatar Sample.bob
    ∈ invocation Sample.bob_no_avatar Sample.bob.
Proof.
  assert (avatarAdd Sample.bob ∈ invocation Sample.bob_no_avatar Sample.bob) as Hadd.
  { vm_compute. apply list_elem_of_here. }
  split; [exact Hadd|].
  apply (avatar_add_implies_update Sample.bob_no_avatar Sample.bob _ Hadd eq_refl).
Defined.

Lemma avatarRemove_only oldMember newMember e :
  e ∈ changes oldMember newMember →
  eventName e = "guildMemberAvatarRemove" →
  toBoolean (avatar oldMember) = true ∧ toBoolean (avatar newMember) = false.
Proof.
  which_check H.
  apply andb_true_iff in H as [Hold Hnew]. by apply negb_true_iff in Hnew.
Qed.

(** The handler's avatar tests are truthiness tests: an avatar id that is the
    empty string counts as no avatar.  Discord's avatar ids are hashes and never
    empty; were one to be, going from [""] to [null] would emit
    [guildMemberAvatarUpdate] without [guildMemberAvatarRemove]. *)
Remark empty_avatar_id oldMember newMember :
  partial oldMember = false →
  avatar oldMember = Some "" →
  avatar newMember = None →
  avatarUpdate oldMember newMember ∈ invocation oldMember newMember
  ∧ ∀ e, e ∈ invocation oldMember newMember → eventName e ≠ "guildMemberAvatarRemove".
Proof.
  intros Hp Hold Hnew. split.
  - apply change_fired; [done|].
    apply elem_of_changes. do 7 right. left. by rewrite Hold, Hnew.
  - intros e. rewrite invocation_emissions, elem_of_emissions.
    intros [[_ He]|[_ ->]] Hn; [|discriminate Hn].
    destruct (avatarRemove_only _ _ _ He Hn) as [Htruthy _].
    rewrite Hold in Htruthy. discriminate Htruthy.
Qed.

(** ** Roles *)

Lemma filter_fmap {A B} (f : A → B) (P : B → Prop) `{!∀ y, Decision (P y)} (l : list A) :
  filter P (f <$> l) = f <$> filter (λ x, P (f x)) l.
Proof.
  induction l as [|x l IH]; [done|].
  rewrite fmap_cons, !filter_cons, IH. by destruct (decide (P (f x))).
Qed.

(** A key of a [Map] occurs once among its keys. *)
Lemma count_key (l : list Snowflake) k :
  NoDup l → length (filter (λ x, x = k) l) = if decide (k ∈ l) then 1 else 0.
Proof.
  induction 1 as [|x l Hx _ IH].
  - rewrite decide_False; [done | apply not_elem_of_nil].
  - rewrite filter_cons. destruct (decide (x = k)) as [->|Hne].
    + rewrite decide_True by apply list_elem_of_here. cbn.
      by rewrite IH, decide_False.
    + rewrite IH. apply decide_ext. rewrite elem_of_cons. naive_solver.
Qed.

Lemma filter_named_fires_ne name c e :
  eventName e ≠ name → filter (named name) (fires c e) = [].
Proof.
  intros Hne. destruct c; [|done]. cbn [fires]. by rewrite filter_cons_False.
Qed.

Lemma filter_named_fmap_eq {A} name (f : A → Emission) (l : list A) :
  (∀ x, eventName (f x) = name) → filter (named name) (f <$> l) = f <$> l.
Proof. intros Hf. apply filter_all, Forall_fmap, Forall_true. exact Hf. Qed.

Lemma filter_named_fmap_ne {A} name (f : A → Emission) (l : list A) :
  (∀ x, eventName (f x) ≠ name) → filter (named name) (f <$> l) = [].
Proof. intros Hf. apply filter_none, Forall_fmap, Forall_true. exact Hf. Qed.

Lemma filter_named_changes_roleAdd oldMember newMember :
  filter (named "guildMemberRoleAdd") (changes oldMember newMember)
  = roleAdd oldMember <$> addedRoles oldMember newMember.
Proof.
  unfold changes. rewrite !filter_app.
  rewrite !filter_named_fires_ne by (cbn; discriminate).
  rewrite filter_named_fmap_eq by done.
  rewrite filter_named_fmap_ne by (intros role; cbn; discriminate).
  by rewrite !app_nil_r.
Qed.

Lemma filter_named_changes_roleRemove oldMember newMember :
  filter (named "guildMemberRoleRemove") (changes oldMember newMember)
  = roleRemove oldMember <$> removedRoles oldMember newMember.
Proof.
  unfold changes. rewrite !filter_app.
  rewrite !filter_named_fires_ne by (cbn; discriminate).
  rewrite (filter_named_fmap_eq _ (roleRemove oldMember)) by done.
  rewrite (filter_named_fmap_ne _ (roleAdd oldMember)) by (intros role; cbn; discriminate).
  by rewrite !app_nil_r.
Qed.

Lemma filter_named_invocation name oldMember newMember :
  partial oldMember = false →
  name ≠ "unhandledGuildMemberUpdate" →
  filter (named name) (invocation oldMember newMember)
  = filter (named name) (changes oldMember newMember).
Proof.
  intros Hp Hname. rewrite invocation_emissions.
  destruct (decide (changes oldMember newMember = [])) as [Hc|Hc].
  - rewrite emissions_unchanged, Hc by done.
    rewrite filter_cons_False; [done|]. unfold named. cbn. congruence.
  - by rewrite emissions_changes.
Qed.

(** The role events about one id are as many as the entries of [c] under that
    id that [c'] lacks. *)
Lemma count_about name (mk : Role → Emission) c c' k :
  role_cache c →
  (∀ role, eventName (mk role) = name ∧ roleOf (mk role) = Some role) →
  length (filter (aboutRole name k)
            (mk <$> filter (λ role, Role.id role ∉ keys c') (values c)))
  = if decide (k ∈ keys c ∧ k ∉ keys c') then 1 else 0.
Proof.
  intros Hc Hmk.
  rewrite filter_fmap, length_fmap, list_filter_filter.
  rewrite (list_filter_iff _ (λ role, Role.id role = k ∧ Role.id role ∉ keys c')).
  2:{ intros role. unfold aboutRole. destruct (Hmk role) as [-> ->]. cbn.
      naive_solver. }
  assert (length (filter (λ role, Role.id role = k ∧ Role.id role ∉ keys c') (values c))
          = length (filter (λ x, x = k ∧ x ∉ keys c') (keys c))) as ->.
  { by rewrite <-(role_cache_keys c Hc), filter_fmap, length_fmap. }
  destruct (decide (k ∉ keys c')) as [Hk|Hk].
  - rewrite (list_filter_iff _ (λ x, x = k)) by naive_solver.
    rewrite count_key by apply Hc. apply decide_ext. naive_solver.
  - rewrite filter_none, decide_False; [done | naive_solver |].
    apply Forall_true. naive_solver.
Qed.

Lemma aboutRole_named name k e : aboutRole name k e → named name e.
Proof. by intros [Hn _]. Qed.

Lemma count_about_invocation name (mk : Role → Emission) c c' k oldMember newMember :
  partial oldMember = false →
  name ≠ "unhandledGuildMemberUpdate" →
  role_cache c →
  (∀ role, eventName (mk role) = name ∧ roleOf (mk role) = Some role) →
  filter (named name) (changes oldMember newMember)
  = mk <$> filter (λ role, Role.id role ∉ keys c') (values c) →
  length (filter (aboutRole name k) (invocation oldMember newMember))
  = if decide (k ∈ keys c ∧ k ∉ keys c') then 1 else 0.
Proof.
  intros Hp Hname Hc Hmk Hseg.
  rewrite <-(list_filter_filter_l _ (named name)) by apply aboutRole_named.
  rewrite filter_named_invocation, Hseg by done.
  by apply count_about.
Qed.

(** [{A, B}] against [{B, C}]: [C] is the only role added, [A] the only one
    removed. *)
Lemma absent_AB_BC (a b c : Role) :
  Role.id a ≠ Role.id b → Role.id b ≠ Role.id c → Role.id a ≠ Role.id c →
  filter (λ role, Role.id role ∉ keys [(Role.id a, a); (Role.id b, b)])
         (values [(Role.id b, b); (Role.id c, c)]) = [c]
  ∧ filter (λ role, Role.id role ∉ keys [(Role.id b, b); (Role.id c, c)])
           (values [(Role.id a, a); (Role.id b, b)]) = [a].
Proof.
  intros Hab Hbc Hac. unfold keys, values. cbn [fmap list_fmap fst snd].
  split.
  - rewrite filter_cons_False by (intros H; apply H; set_solver).
    rewrite filter_cons_True by set_solver. done.
  - rewrite filter_cons_True by set_solver.
    rewrite filter_cons_False by (intros H; apply H; set_solver). done.
Qed.

(** C5. When the old member is not a partial, the [guildMemberRoleAdd]
    emissions of a call are, in the order in which the new member's role cache
    is visited, one per role whose id the old cache lacks, each carrying the
    old member and that role; the [guildMemberRoleRemove] emissions are, in the
    order of the old cache, one per role whose id the new cache lacks, each
    carrying the old member and that role.  For every role id there is exactly
    one [guildMemberRoleAdd] about it when it is in the new cache and not in
    the old one (none otherwise), and exactly one [guildMemberRoleRemove] when
    it is in the old cache and not in the new one (none otherwise).  With old
    roles [{A, B}] and new roles [{B, C}] the call emits one
    [guildMemberRoleRemove] for [A], one [guildMemberRoleAdd] for [C], and no
    [unhandledGuildMemberUpdate]. *)
Theorem role_events oldMember newMember :
  partial oldMember = false →
  role_cache (cache (roles oldMember)) →
  role_cache (cache (roles newMember)) →
  let evs := invocation oldMember newMember in
  let oldRoles := cache (roles oldMember) in
  let newRoles := cache (roles newMember) in
  filter (named "guildMemberRoleAdd") evs
  = (λ role, event "guildMemberRoleAdd" [VMember oldMember; VRole role])
      <$> filter (λ role, Role.id role ∉ keys oldRoles) (values newRoles)
  ∧ filter (named "guildMemberRoleRemove") evs
    = (λ role, event "guildMemberRoleRemove" [VMember oldMember; VRole role])
        <$> filter (λ role, Role.id role ∉ keys newRoles) (values oldRoles)
  ∧ (∀ k, length (filter (aboutRole "guildMemberRoleAdd" k) evs)
          = if decide (k ∈ keys newRoles ∧ k ∉ keys oldRoles) then 1 else 0)
  ∧ (∀ k, length (filter (aboutRole "guildMemberRoleRemove" k) evs)
          = if decide (k ∈ keys oldRoles ∧ k ∉ keys newRoles) then 1 else 0)
  ∧ (∀ a b c,
       oldRoles = [(Role.id a, a); (Role.id b, b)] →
       newRoles = [(Role.id b, b); (Role.id c, c)] →
       Role.id a ≠ Role.id c →
       filter (named "guildMemberRoleAdd") evs = [roleAdd oldMember c]
       ∧ filter (named "guildMemberRoleRemove") evs = [roleRemove oldMember a]
       ∧ fallbackFired evs = 0).
Proof.
  intros Hp Hold Hnew. cbv zeta.
  pose proof (filter_named_changes_roleAdd oldMember newMember) as Hadd.
  pose proof (filter_named_changes_roleRemove oldMember newMember) as Hrem.
  unfold addedRoles in Hadd. unfold removedRoles in Hrem.
  rewrite !filter_named_invocation by done.
  split; [exact Hadd|]. split; [exact Hrem|]. split; [|split].
  - intros k. by apply (count_about_invocation _ (roleAdd oldMember)).
  - intros k. by apply (count_about_invocation _ (roleRemove oldMember)).
  - intros a b c Ha Hc Hac. rewrite Hadd, Hrem.
    assert (Role.id a ≠ Role.id b) as Hab.
    { destruct Hold as [Hnd _]. rewrite Ha in Hnd. unfold keys in Hnd.
      cbn in Hnd. apply NoDup_cons in Hnd as [Hnd _]. set_solver. }
    assert (Role.id b ≠ Role.id c) as Hbc.
    { destruct Hnew as [Hnd _]. rewrite Hc in Hnd. unfold keys in Hnd.
      cbn in Hnd. apply NoDup_cons in Hnd as [Hnd _]. set_solver. }
    destruct (absent_AB_BC a b c Hab Hbc Hac) as [HC HA].
    rewrite Ha, Hc, HC, HA. split; [done|]. split; [done|].
    destruct (change_fired (roleAdd oldMember c) oldMember newMember Hp) as [_ Heq].
    { apply elem_of_changes. do 2 right. left. exists c. split; [done|].
      unfold addedRoles. rewrite Ha, Hc, HC. apply list_elem_of_here. }
    rewrite Heq. apply fallbackFired_changes.
Qed.

Lemma role_events_witness :
  partial Sample.bob = false
  ∧ role_cache (cache (roles Sample.bob))
  ∧ role_cache (cache (roles Sample.bob_roles_BC))
  ∧ filter (named "guildMemberRoleAdd") (invocation Sample.bob Sample.bob_roles_BC)
    = [roleAdd Sample.bob Sample.roleC]
  ∧ filter (named "guildMemberRoleRemove") (invocation Sample.bob Sample.bob_roles_BC)
    = [roleRemove Sample.bob Sample.roleA]
  ∧ fallbackFired (invocation Sample.bob Sample.bob_roles_BC) = 0.
Proof.
  assert (role_cache (cache (roles Sample.bob))) as Hold by compute_done.
  assert (role_cache (cache (roles Sample.bob_roles_BC))) as Hnew by compute_done.
  split; [reflexivity|]. split; [exact Hold|]. split; [exact Hnew|].
  destruct (role_events Sample.bob Sample.bob_roles_BC eq_refl Hold Hnew)
    as (_ & _ & _ & _ & Hex).
  apply (Hex Sample.roleA Sample.roleB Sample.roleC); [reflexivity..|discriminate].
Defined.

(** ** Repeated calls *)

(** C9. What a call emits depends on the two members only, not on what the
    client has emitted before: the call appends the same sequence of emissions,
    names, payloads and order, to any client, so calling the handler a second
    time with the same two members emits that sequence a second time. *)
Theorem handler_deterministic oldMember newMember :
  (∀ c, handleGuildMemberUpdateEvent c oldMember newMember
        = c ++ invocation oldMember newMember)
  ∧ (∀ c, handleGuildMemberUpdateEvent
            (handleGuildMemberUpdateEvent c oldMember newMember) oldMember newMember
          = c ++ invocation oldMember newMember ++ invocation oldMember newMember)
  ∧ (∀ c c', drop (length c) (handleGuildMemberUpdateEvent c oldMember newMember)
             = drop (length c') (handleGuildMemberUpdateEvent c' oldMember newMember)).
Proof.
  assert (∀ c, handleGuildMemberUpdateEvent c oldMember newMember
               = c ++ invocation oldMember newMember) as H.
  { intros c. by rewrite invocation_emissions, handle_emissions. }
  split; [exact H|]. split.
  - intros c. by rewrite !H, <-app_assoc.
  - intros c c'. by rewrite !H, !drop_app_length.
Qed.

(** ** Each single event, exactly *)

Lemma filter_named_fires_eq name c e :
  eventName e = name → filter (named name) (fires c e) = fires c e.
Proof. intros Hn. apply filter_all, Forall_fires. exact Hn. Qed.

(** Keep, of [changes], the segment of the check that emits [e]. *)
Ltac keep_segment e :=
  unfold changes; rewrite !filter_app;
  rewrite (filter_named_fires_eq _ _ e) by done;
  rewrite !filter_named_fires_ne by (cbn; discriminate);
  rewrite !filter_named_fmap_ne by (intros ?; cbn; discriminate);
  cbn [app]; by rewrite ?app_nil_r.

Lemma filter_named_changes_boost oldMember newMember :
  filter (named "guildMemberBoost") (changes oldMember newMember)
  = fires (negb (toBoolean (premiumSince oldMember)) && toBoolean (premiumSince newMember))
          (boost newMember).
Proof. keep_segment (boost newMember). Qed.

Lemma filter_named_changes_unboost oldMember newMember :
  filter (named "guildMemberUnboost") (changes oldMember newMember)
  = fires (toBoolean (premiumSince oldMember) && negb (toBoolean (premiumSince newMember)))
          (unboost newMember).
Proof. keep_segment (unboost newMember). Qed.

Lemma filter_named_changes_nickname oldMember newMember :
  filter (named "guildMemberNicknameUpdate") (changes oldMember newMember)
  = fires (nickname oldMember !== nickname newMember) (nicknameUpdate oldMember newMember).
Proof. keep_segment (nicknameUpdate oldMember newMember). Qed.

Lemma filter_named_changes_avatarAdd oldMember newMember :
  filter (named "guildMemberAvatarAdd") (changes oldMember newMember)
  = fires (negb (toBoolean (avatar oldMember)) && toBoolean (avatar newMember))
          (avatarAdd newMember).
Proof. keep_segment (avatarAdd newMember). Qed.

Lemma filter_named_changes_avatarUpdate oldMember newMember :
  filter (named "guildMemberAvatarUpdate") (changes oldMember newMember)
  = fires (avatar oldMember !== avatar newMember) (avatarUpdate oldMember newMember).
Proof. keep_segment (avatarUpdate oldMember newMember). Qed.

Lemma filter_named_changes_avatarRemove oldMember newMember :
  filter (named "guildMemberAvatarRemove") (changes oldMember newMember)
  = fires (toBoolean (avatar oldMember) && negb (toBoolean (avatar newMember)))
          (avatarRemove oldMember newMember).
Proof. keep_segment (avatarRemove oldMember newMember). Qed.

Lemma fires_decide (P : Prop) `{!Decision P} c e :
  (c = true ↔ P) → fires c e = if decide P then [e] else [].
Proof.
  intros H. destruct c, (decide P) as [HP|HP]; cbn; try done.
  - destruct HP. by apply H.
  - by apply H in HP.
Qed.

Lemma toBoolean_Date (d : option Date) : toBoolean d = true ↔ is_Some d.
Proof.
  destruct d as [d|]; cbn.
  - split; [eauto | done].
  - split; [done | by intros [? ?]].
Qed.

Lemma toBoolean_Date_false (d : option Date) : toBoolean d = false ↔ d = None.
Proof. destruct d; cbn; split; done. Qed.

Lemma filter_named_invocation_partial name oldMember newMember :
  partial oldMember = true →
  name ≠ "unhandledGuildMemberUpdate" →
  filter (named name) (invocation oldMember newMember) = [].
Proof.
  intros Hp Hname. rewrite invocation_emissions, emissions_partial by done.
  rewrite filter_cons_False; [done|]. unfold named. cbn. congruence.
Qed.

(** A call emits [guildMemberUnboost] when the old member has a boost timestamp
    and the new one has none, then once and with the new member, and in no
    other case. *)
Theorem unboost_exactly oldMember newMember :
  partial oldMember = false →
  filter (named "guildMemberUnboost") (invocation oldMember newMember)
  = if decide (is_Some (premiumSince oldMember) ∧ premiumSince newMember = None)
    then [event "guildMemberUnboost" [VMember newMember]] else [].
Proof.
  intros Hp. rewrite filter_named_invocation, filter_named_changes_unboost by done.
  apply fires_decide.
  by rewrite andb_true_iff, negb_true_iff, toBoolean_Date, toBoolean_Date_false.
Qed.

Lemma unboost_exactly_witness :
  partial Sample.bob_boosting = false
  ∧ filter (named "guildMemberUnboost") (invocation Sample.bob_boosting Sample.bob)
    = [unboost Sample.bob].
Proof.
  split; [reflexivity|].
  exact (unboost_exactly Sample.bob_boosting Sample.bob eq_refl).
Defined.

(** A call emits [guildMemberBoost] when the old member has no boost timestamp
    and the new one has one, then once and with the new member, and in no other
    case. *)
Theorem boost_exactly oldMember newMember :
  partial oldMember = false →
  filter (named "guildMemberBoost") (invocation oldMember newMember)
  = if decide (premiumSince oldMember = None ∧ is_Some (premiumSince newMember))
    then [event "guildMemberBoost" [VMember newMember]] else [].
Proof.
  intros Hp. rewrite filter_named_invocation, filter_named_changes_boost by done.
  apply fires_decide.
  by rewrite andb_true_iff, negb_true_iff, toBoolean_Date, toBoolean_Date_false.
Qed.

Lemma boost_exactly_witness :
  partial Sample.bob_boosting = false
  ∧ filter (named "guildMemberBoost") (invocation Sample.bob_boosting Sample.bob) = [].
Proof.
  split; [reflexivity|].
  exact (boost_exactly Sample.bob_boosting Sample.bob eq_refl).
Defined.

(** No call emits both [guildMemberBoost] and [guildMemberUnboost]; and when
    both members have a boost timestamp the call emits neither, whether the two
    timestamps are the same or not: the handler compares their presence only. *)
Theorem boost_unboost_exclusive oldMember newMember :
  let evs := invocation oldMember newMember in
  (filter (named "guildMemberBoost") evs = []
   ∨ filter (named "guildMemberUnboost") evs = [])
  ∧ (is_Some (premiumSince oldMember) → is_Some (premiumSince newMember) →
     filter (named "guildMemberBoost") evs = []
     ∧ filter (named "guildMemberUnboost") evs = []).
Proof.
  cbv zeta. destruct (partial oldMember) eqn:Hp.
  - rewrite !filter_named_invocation_partial by done. auto.
  - rewrite !filter_named_invocation by done.
    rewrite filter_named_changes_boost, filter_named_changes_unboost. split.
    + destruct (toBoolean (premiumSince oldMember)); cbn; auto.
    + intros [d Hold] [d' Hnew]. by rewrite Hold, Hnew.
Qed.

Lemma boost_unboost_exclusive_witness :
  is_Some (premiumSince Sample.bob_boosting)
  ∧ is_Some (premiumSince Edge.bob_boosting_later)
  ∧ premiumSince Sample.bob_boosting ≠ premiumSince Edge.bob_boosting_later
  ∧ filter (named "guildMemberBoost")
      (invocation Sample.bob_boosting Edge.bob_boosting_later) = []
  ∧ filter (named "guildMemberUnboost")
      (invocation Sample.bob_boosting Edge.bob_boosting_later) = [].
Proof.
  assert (is_Some (premiumSince Sample.bob_boosting)) as Hold by (cbn; eauto).
  assert (is_Some (premiumSince Edge.bob_boosting_later)) as Hnew by (cbn; eauto).
  split; [exact Hold|]. split; [exact Hnew|]. split; [discriminate|].
  exact (proj2 (boost_unboost_exclusive Sample.bob_boosting Edge.bob_boosting_later)
           Hold Hnew).
Defined.

(** A call emits [guildMemberNicknameUpdate] only when the two nicknames are
    not strictly equal, and then once. *)
Theorem nickname_exactly oldMember newMember :
  partial oldMember = false →
  filter (named "guildMemberNicknameUpdate") (invocation oldMember newMember)
  = if decide (nickname oldMember ≠ nickname newMember)
    then [event "guildMemberNicknameUpdate"
            [VMember newMember; VString (nickname oldMember);
             VString (nickname newMember)]]
    else [].
Proof.
  intros Hp. rewrite filter_named_invocation, filter_named_changes_nickname by done.
  apply fires_decide, strictNe_true.
Qed.

Lemma nickname_exactly_witness :
  partial Sample.bob = false
  ∧ filter (named "guildMemberNicknameUpdate") (invocation Sample.bob Sample.bob_pending)
    = [].
Proof.
  split; [reflexivity|].
  exact (nickname_exactly Sample.bob Sample.bob_pending eq_refl).
Defined.

(** A call emits [guildMemberAvatarUpdate] exactly when the two avatar ids are
    not strictly equal, and then once, with the new member, the old avatar URL
    and the new avatar URL.  A change of the avatar URL alone emits none. *)
Theorem avatarUpdate_exactly oldMember newMember :
  partial oldMember = false →
  filter (named "guildMemberAvatarUpdate") (invocation oldMember newMember)
  = if decide (avatar oldMember ≠ avatar newMember)
    then [event "guildMemberAvatarUpdate"
            [VMember newMember; VString (avatarURL oldMember);
             VString (avatarURL newMember)]]
    else [].
Proof.
  intros Hp. rewrite filter_named_invocation, filter_named_changes_avatarUpdate by done.
  apply fires_decide, strictNe_true.
Qed.

Lemma avatarUpdate_exactly_witness :
  partial Sample.bob = false
  ∧ filter (named "guildMemberAvatarUpdate") (invocation Sample.bob Edge.bob_avatar_y)
    = [avatarUpdate Sample.bob Edge.bob_avatar_y].
Proof.
  split; [reflexivity|].
  exact (avatarUpdate_exactly Sample.bob Edge.bob_avatar_y eq_refl).
Defined.

(** A call emits [guildMemberAvatarAdd] exactly when the old avatar id fails
    the handler's test and the new one passes it, [guildMemberAvatarRemove]
    exactly when the old one passes it and the new one fails it, each once, and
    never both. *)
Theorem avatar_add_remove_exactly oldMember newMember :
  partial oldMember = false →
  let evs := invocation oldMember newMember in
  filter (named "guildMemberAvatarAdd") evs
  = (if decide (toBoolean (avatar oldMember) = false ∧ toBoolean (avatar newMember) = true)
     then [event "guildMemberAvatarAdd" [VMember newMember; VString (avatarURL newMember)]]
     else [])
  ∧ filter (named "guildMemberAvatarRemove") evs
    = (if decide (toBoolean (avatar oldMember) = true
                  ∧ toBoolean (avatar newMember) = false)
       then [event "guildMemberAvatarRemove"
               [VMember newMember; VString (avatarURL oldMember)]]
       else [])
  ∧ (filter (named "guildMemberAvatarAdd") evs = []
     ∨ filter (named "guildMemberAvatarRemove") evs = []).
Proof.
  intros Hp. cbv zeta.
  rewrite !filter_named_invocation by done.
  rewrite filter_named_changes_avatarAdd, filter_named_changes_avatarRemove.
  split; [|split].
  - apply fires_decide. by rewrite andb_true_iff, negb_true_iff.
  - apply fires_decide. by rewrite andb_true_iff, negb_true_iff.
  - destruct (toBoolean (avatar oldMember)); cbn; auto.
Qed.

Lemma avatar_add_remove_exactly_witness :
  partial Sample.bob = false
  ∧ filter (named "guildMemberAvatarAdd") (invocation Sample.bob Edge.bob_avatar_y) = []
  ∧ filter (named "guildMemberAvatarRemove") (invocation Sample.bob Edge.bob_avatar_y) = [].
Proof.
  split; [reflexivity|].
  destruct (avatar_add_remove_exactly Sample.bob Edge.bob_avatar_y eq_refl)
    as (Hadd & Hrem & _).
  split; [exact Hadd | exact Hrem].
Defined.

(** ** The order of the emissions *)

Lemma ordered_from_last p seg :
  Forall (λ e, position (eventName e) = p) seg → ordered_from p seg.
Proof.
  intros Hseg. split.
  - induction Hseg as [|e seg He Hseg IH]; constructor; [exact IH|].
    eapply Forall_impl; [exact Hseg|]. unfold before. intros e' He'. cbn in He'. lia.
  - eapply Forall_impl; [exact Hseg|]. intros e He. cbn in He. lia.
Qed.

Lemma ordered_from_app p q seg rest :
  p ≤ q →
  Forall (λ e, position (eventName e) = p) seg →
  ordered_from q rest →
  ordered_from p (seg ++ rest).
Proof.
  intros Hpq Hseg [Hsorted Hfrom].
  destruct (ordered_from_last p seg Hseg) as [Hs Hf]. split.
  - apply StronglySorted_app_2; [|exact Hs|exact Hsorted].
    intros e1 e2 He1 He2. unfold before.
    rewrite Forall_forall in Hseg, Hfrom.
    specialize (Hseg e1 He1). specialize (Hfrom e2 He2). cbn in Hseg, Hfrom. lia.
  - apply Forall_app. split; [exact Hf|].
    eapply Forall_impl; [exact Hfrom|]. intros e He. cbn in He. lia.
Qed.

Lemma StronglySorted_lookup {A} (R : relation A) (l : list A) i j x y :
  StronglySorted R l → l !! i = Some x → l !! j = Some y → i < j → R x y.
Proof.
  intros Hsorted. revert i j.
  induction Hsorted as [|a l Hsorted IH Ha]; intros i j Hi Hj Hij; [done|].
  destruct j as [|j]; [lia|]. destruct i as [|i]; cbn in Hi, Hj.
  - injection Hi as ->. rewrite Forall_forall in Ha.
    apply Ha. by eapply list_elem_of_lookup_2.
  - apply (IH i j); [done..|lia].
Qed.

Lemma changes_ordered oldMember newMember :
  ordered_from 0 (changes oldMember newMember).
Proof.
  unfold changes.
  apply (ordered_from_app 0 1); [lia | by apply Forall_fires |].
  apply (ordered_from_app 1 2); [lia | by apply Forall_fires |].
  apply (ordered_from_app 2 3); [lia | by apply Forall_fmap, Forall_true |].
  apply (ordered_from_app 3 4); [lia | by apply Forall_fmap, Forall_true |].
  apply (ordered_from_app 4 5); [lia | by apply Forall_fires |].
  apply (ordered_from_app 5 6); [lia | by apply Forall_fires |].
  apply (ordered_from_app 6 7); [lia | by apply Forall_fires |].
  apply (ordered_from_app 7 8); [lia | by apply Forall_fires |].
  apply ordered_from_last. by apply Forall_fires.
Qed.

(** The emissions of a call come in the order of the handler's text: boost,
    unboost, every role added, every role removed, nickname, entered, avatar
    added, avatar updated, avatar removed.  Whenever one emission precedes
    another in the log, its event does not stand after the other's. *)
Theorem emissions_in_program_order oldMember newMember :
  StronglySorted before (invocation oldMember newMember)
  ∧ ∀ i j e1 e2,
      invocation oldMember newMember !! i = Some e1 →
      invocation oldMember newMember !! j = Some e2 →
      position (eventName e2) < position (eventName e1) →
      j < i.
Proof.
  assert (StronglySorted before (invocation oldMember newMember)) as Hsorted.
  { rewrite invocation_emissions.
    destruct (emissions_cases oldMember newMember) as [(_ & _ & ->) | ->].
    - apply changes_ordered.
    - repeat constructor. }
  split; [exact Hsorted|].
  intros i j e1 e2 Hi Hj Hpos.
  destruct (decide (j < i)) as [|Hge]; [done|]. exfalso.
  destruct (decide (i = j)) as [->|Hne].
  - rewrite Hi in Hj. injection Hj as ->. lia.
  - assert (i < j) as Hlt by lia.
    pose proof (StronglySorted_lookup before _ i j e1 e2 Hsorted Hi Hj Hlt) as Hb.
    unfold before in Hb. lia.
Qed.

Lemma emissions_in_program_order_witness :
  invocation Sample.bob Sample.bob_roles_BC !! 0 = Some (roleAdd Sample.bob Sample.roleC)
  ∧ invocation Sample.bob Sample.bob_roles_BC !! 1
    = Some (roleRemove Sample.bob Sample.roleA)
  ∧ ¬ position "guildMemberRoleRemove" < position "guildMemberRoleAdd".
Proof.
  split; [reflexivity|]. split; [reflexivity|].
  intros Hpos.
  pose proof (proj2 (emissions_in_program_order Sample.bob Sample.bob_roles_BC)
                0 1 _ _ eq_refl eq_refl Hpos) as H.
  lia.
Defined.

(** ** Which member an emission carries *)

(** The first argument of every emission is a member: the old member for
    [guildMemberRoleAdd], [guildMemberRoleRemove] and
    [unhandledGuildMemberUpdate], the new member for the seven other events. *)
Theorem subject_of_emission oldMember newMember e :
  e ∈ invocation oldMember newMember →
  subject e
  = Some (if decide (eventName e ∈ aboutOldMember) then oldMember else newMember).
Proof.
  rewrite invocation_emissions, elem_of_emissions.
  intros [[_ He]|[_ ->]]; [|reflexivity].
  apply elem_of_changes in He.
  destruct He
    as [[_ ->]|[[_ ->]|[[r [-> _]]|[[r [-> _]]|[[_ ->]|[[_ ->]|[[_ ->]|[[_ ->]|[_ ->]]]]]]]]];
    reflexivity.
Qed.

Lemma subject_of_emission_witness :
  roleAdd Sample.bob Sample.roleC ∈ invocation Sample.bob Sample.bob_roles_BC
  ∧ subject (roleAdd Sample.bob Sample.roleC) = Some Sample.bob
  ∧ Sample.bob ≠ Sample.bob_roles_BC.
Proof.
  assert (roleAdd Sample.bob Sample.roleC ∈ invocation Sample.bob Sample.bob_roles_BC)
    as Hin by (vm_compute; apply list_elem_of_here).
  split; [exact Hin|]. split; [|discriminate].
  exact (subject_of_emission Sample.bob Sample.bob_roles_BC _ Hin).
Defined.

Lemma role_event_in_changes name m role oldMember newMember :
  name ≠ "unhandledGuildMemberUpdate" →
  event name [VMember m; VRole role] ∈ invocation oldMember newMember →
  event name [VMember m; VRole role] ∈ changes oldMember newMember.
Proof.
  intros Hname. rewrite invocation_emissions, elem_of_emissions.
  intros [[_ He]|[_ He]]; [exact He|].
  unfold fallback, event in He. congruence.
Qed.

(** The member that comes with [guildMemberRoleAdd] is the old member: the role
    that comes with it is taken from the new member's cache, and the member's
    own cache has no entry under the role's id.  The member that comes with
    [guildMemberRoleRemove] is the old member too: the role is taken from that
    member's cache, and the new member's cache has no entry under its id. *)
Theorem role_events_and_caches oldMember newMember m role :
  let evs := invocation oldMember newMember in
  (event "guildMemberRoleAdd" [VMember m; VRole role] ∈ evs →
   m = oldMember
   ∧ role ∈ values (cache (roles newMember))
   ∧ has (cache (roles m)) (Role.id role) = false)
  ∧ (event "guildMemberRoleRemove" [VMember m; VRole role] ∈ evs →
     m = oldMember
     ∧ role ∈ values (cache (roles m))
     ∧ has (cache (roles newMember)) (Role.id role) = false).
Proof.
  cbv zeta. split; intros He; apply role_event_in_changes in He; try done;
    apply elem_of_changes in He;
    destruct He
      as [[_ He]|[[_ He]|[[r [He Hr]]|[[r [He Hr]]|[[_ He]|[[_ He]|[[_ He]|[[_ He]|[_ He]]]]]]]]];
    try discriminate He.
  - injection He as -> ->. apply list_elem_of_filter in Hr as [Hid Hr].
    split; [done|]. split; [done|]. by apply bool_decide_eq_false_2.
  - injection He as -> ->. apply list_elem_of_filter in Hr as [Hid Hr].
    split; [done|]. split; [done|]. by apply bool_decide_eq_false_2.
Qed.

Lemma role_events_and_caches_witness :
  event "guildMemberRoleAdd" [VMember Sample.bob; VRole Sample.roleC]
    ∈ invocation Sample.bob Sample.bob_roles_BC
  ∧ has (cache (roles Sample.bob)) (Role.id Sample.roleC) = false
  ∧ event "guildMemberRoleRemove" [VMember Sample.bob; VRole Sample.roleA]
      ∈ invocation Sample.bob Sample.bob_roles_BC
  ∧ has (cache (roles Sample.bob_roles_BC)) (Role.id Sample.roleA) = false.
Proof.
  assert (event "guildMemberRoleAdd" [VMember Sample.bob; VRole Sample.roleC]
            ∈ invocation Sample.bob Sample.bob_roles_BC) as Hadd
    by (vm_compute; apply list_elem_of_here).
  assert (event "guildMemberRoleRemove" [VMember Sample.bob; VRole Sample.roleA]
            ∈ invocation Sample.bob Sample.bob_roles_BC) as Hrem
    by (vm_compute; apply list_elem_of_further, list_elem_of_here).
  destruct (role_events_and_caches Sample.bob Sample.bob_roles_BC
              Sample.bob Sample.roleC) as [Ha _].
  destruct (role_events_and_caches Sample.bob Sample.bob_roles_BC
              Sample.bob Sample.roleA) as [_ Hr].
  split; [exact Hadd|]. split; [exact (proj2 (proj2 (Ha Hadd)))|].
  split; [exact Hrem|]. exact (proj2 (proj2 (Hr Hrem))).
Defined.

(** ** When the fallback fires *)

Lemma fires_nil c e : fires c e = [] ↔ c = false.
Proof. by destruct c. Qed.

Lemma filter_nil_Forall {A} (P : A → Prop) `{!∀ x, Decision (P x)} (l : list A) :
  filter P l = [] ↔ Forall (λ x, ¬ P x) l.
Proof.
  split; [|apply filter_none].
  intros Hnil. apply Forall_forall. intros x Hx HP.
  by apply (filter_nil_not_elem_of P l x).
Qed.

(** No role of [c] is missing from [c'] exactly when every key of [c] is a key
    of [c']. *)
Lemma no_role_missing_iff c c' :
  role_cache c →
  filter (λ role, Role.id role ∉ keys c') (values c) = []
  ↔ ∀ k, k ∈ keys c → k ∈ keys c'.
Proof.
  intros Hc. split; [|by apply no_role_missing].
  rewrite filter_nil_Forall, Forall_forall. intros Hnone k Hk.
  rewrite <-(role_cache_keys c Hc) in Hk.
  apply list_elem_of_fmap in Hk as (role & -> & Hrole).
  destruct (decide (Role.id role ∈ keys c')) as [|Hnot]; [done|].
  by destruct (Hnone role Hrole).
Qed.

Lemma fmap_nil_iff {A B} (f : A → B) (l : list A) : f <$> l = [] ↔ l = [].
Proof. split; [apply fmap_nil_inv | by intros ->]. Qed.

Lemma presence_eq (a b : bool) :
  negb a && b = false ∧ a && negb b = false ↔ a = b.
Proof. destruct a, b; cbn; naive_solver. Qed.

Lemma strictNe_false `{EqDecision A} (a b : A) : (a !== b) = false ↔ a = b.
Proof.
  unfold strictNe. rewrite bool_decide_eq_false. split; [|by intros -> ?].
  intros H. by destruct (decide (a = b)).
Qed.

Lemma changes_nil_iff oldMember newMember :
  changes oldMember newMember = [] ↔
    toBoolean (premiumSince oldMember) = toBoolean (premiumSince newMember)
    ∧ addedRoles oldMember newMember = []
    ∧ removedRoles oldMember newMember = []
    ∧ nickname oldMember = nickname newMember
    ∧ pending oldMember = pending newMember
    ∧ avatar oldMember = avatar newMember.
Proof.
  unfold changes.
  rewrite !app_nil, !fires_nil, !fmap_nil_iff, !strictNe_false.
  split.
  - intros (H1 & H2 & Hadd & Hrem & Hnick & Hpend & _ & Hav & _).
    split; [by apply presence_eq | done].
  - intros (Hboost & Hadd & Hrem & Hnick & Hpend & Hav).
    apply presence_eq in Hboost as [H1 H2].
    rewrite Hav, andb_negb_l, andb_negb_r. done.
Qed.

Lemma fallback_iff_no_change oldMember newMember :
  partial oldMember = false →
  fallback oldMember newMember ∈ invocation oldMember newMember
  ↔ changes oldMember newMember = [].
Proof.
  intros Hp. rewrite invocation_emissions, elem_of_emissions. split.
  - intros [[_ He]|[[Hp'|Hnil] _]]; [|congruence|done].
    pose proof (changes_not_fallback oldMember newMember) as Hnot.
    rewrite Forall_forall in Hnot. by destruct (Hnot _ He).
  - intros Hnil. right. auto.
Qed.

(** For an old member that is not a partial, the handler emits
    [unhandledGuildMemberUpdate] exactly when the two members agree on the
    presence of a boost timestamp, on the set of role ids, on the nickname, on
    the pending flag and on the avatar id.  Nothing else is looked at: another
    boost date, another name for a role or another avatar URL leaves the call
    with the fallback alone. *)
Theorem fallback_iff_nothing_compared_differs oldMember newMember :
  partial oldMember = false →
  role_cache (cache (roles oldMember)) →
  role_cache (cache (roles newMember)) →
  fallback oldMember newMember ∈ invocation oldMember newMember
  ↔ (is_Some (premiumSince oldMember) ↔ is_Some (premiumSince newMember))
    ∧ (∀ k, k ∈ keys (cache (roles oldMember)) ↔ k ∈ keys (cache (roles newMember)))
    ∧ nickname oldMember = nickname newMember
    ∧ pending oldMember = pending newMember
    ∧ avatar oldMember = avatar newMember.
Proof.
  intros Hp Hold Hnew.
  rewrite fallback_iff_no_change, changes_nil_iff by done.
  unfold addedRoles, removedRoles.
  rewrite (no_role_missing_iff _ _ Hnew), (no_role_missing_iff _ _ Hold).
  assert (toBoolean (premiumSince oldMember) = toBoolean (premiumSince newMember)
          ↔ (is_Some (premiumSince oldMember) ↔ is_Some (premiumSince newMember))) as ->.
  { rewrite <-!toBoolean_Date.
    destruct (toBoolean (premiumSince oldMember)),
             (toBoolean (premiumSince newMember)); naive_solver. }
  naive_solver.
Qed.

Lemma fallback_iff_nothing_compared_differs_witness :
  partial Sample.bob_boosting = false
  ∧ role_cache (cache (roles Sample.bob_boosting))
  ∧ role_cache (cache (roles Edge.bob_boosting_later))
  ∧ premiumSince Sample.bob_boosting ≠ premiumSince Edge.bob_boosting_later
  ∧ fallback Sample.bob_boosting Edge.bob_boosting_later
    ∈ invocation Sample.bob_boosting Edge.bob_boosting_later.
Proof.
  assert (role_cache (cache (roles Sample.bob_boosting))) as Hold by compute_done.
  assert (role_cache (cache (roles Edge.bob_boosting_later))) as Hnew by compute_done.
  split; [reflexivity|]. split; [exact Hold|]. split; [exact Hnew|].
  split; [discriminate|].
  apply (fallback_iff_nothing_compared_differs
           Sample.bob_boosting Edge.bob_boosting_later eq_refl Hold Hnew).
  split; [split; intros _; cbn; eauto|]. done.
Defined.

Lemma empty_avatar_id_witness :
  partial Edge.bob_empty_avatar = false
  ∧ avatar Edge.bob_empty_avatar = Some ""
  ∧ avatar Sample.bob_no_avatar = None
  ∧ avatarUpdate Edge.bob_empty_avatar Sample.bob_no_avatar
    ∈ invocation Edge.bob_empty_avatar Sample.bob_no_avatar.
Proof.
  do 3 (split; [reflexivity|]).
  exact (proj1 (empty_avatar_id Edge.bob_empty_avatar Sample.bob_no_avatar
                  eq_refl eq_refl eq_refl)).
Defined.

(** ** How many emissions *)

Lemma length_fires c e : length (fires c e) ≤ 1.
Proof. destruct c; cbn; lia. Qed.

(** A call emits at least one event, and at most five besides the role events:
    boost and unboost exclude each other, and so do avatar added and avatar
    removed. *)
Theorem emission_count oldMember newMember :
  let evs := invocation oldMember newMember in
  1 ≤ length evs
  ∧ length evs ≤ 5 + length (filter (named "guildMemberRoleAdd") evs)
                   + length (filter (named "guildMemberRoleRemove") evs).
Proof.
  cbv zeta. rewrite invocation_emissions.
  destruct (emissions_cases oldMember newMember) as [(_ & Hne & ->) | ->];
    [|cbn; lia].
  split; [destruct (changes oldMember newMember); [done | cbn; lia]|].
  rewrite filter_named_changes_roleAdd, filter_named_changes_roleRemove.
  unfold changes. rewrite !List.length_app, !length_fmap.
  pose proof (length_fires (nickname oldMember !== nickname newMember)
                (nicknameUpdate oldMember newMember)).
  pose proof (length_fires (pending oldMember !== pending newMember)
                (entered newMember)).
  pose proof (length_fires (avatar oldMember !== avatar newMember)
                (avatarUpdate oldMember newMember)).
  destruct (toBoolean (premiumSince oldMember)), (toBoolean (premiumSince newMember)),
           (toBoolean (avatar oldMember)), (toBoolean (avatar newMember));
    cbn [negb andb fires length]; lia.
Qed.

(** ** Empty role caches *)

Lemma filter_absent_nil (l : list Role) :
  filter (λ role, Role.id role ∉ keys []) l = l.
Proof. apply filter_all, Forall_true. intros role. apply not_elem_of_nil. Qed.

(** With an empty cache on the old member, every role of the new member is
    reported as added, in cache order, and none as removed; with an empty cache
    on the new member, every role of the old member is reported as removed and
    none as added. *)
Theorem empty_role_cache oldMember newMember :
  partial oldMember = false →
  let evs := invocation oldMember newMember in
  (cache (roles oldMember) = [] →
   filter (named "guildMemberRoleAdd") evs
   = (λ role, event "guildMemberRoleAdd" [VMember oldMember; VRole role])
       <$> values (cache (roles newMember))
   ∧ filter (named "guildMemberRoleRemove") evs = [])
  ∧ (cache (roles newMember) = [] →
     filter (named "guildMemberRoleRemove") evs
     = (λ role, event "guildMemberRoleRemove" [VMember oldMember; VRole role])
         <$> values (cache (roles oldMember))
     ∧ filter (named "guildMemberRoleAdd") evs = []).
Proof.
  intros Hp. cbv zeta.
  rewrite !filter_named_invocation by done.
  rewrite filter_named_changes_roleAdd, filter_named_changes_roleRemove.
  unfold addedRoles, removedRoles.
  split; intros ->; by rewrite filter_absent_nil.
Qed.

Lemma empty_role_cache_witness :
  partial Edge.bob_no_roles = false
  ∧ cache (roles Edge.bob_no_roles) = []
  ∧ filter (named "guildMemberRoleAdd") (invocation Edge.bob_no_roles Sample.bob)
    = [roleAdd Edge.bob_no_roles Sample.roleA; roleAdd Edge.bob_no_roles Sample.roleB]
  ∧ filter (named "guildMemberRoleRemove") (invocation Sample.bob Edge.bob_no_roles)
    = [roleRemove Sample.bob Sample.roleA; roleRemove Sample.bob Sample.roleB].
Proof.
  do 2 (split; [reflexivity|]).
  destruct (empty_role_cache Edge.bob_no_roles Sample.bob eq_refl) as [Hadd _].
  destruct (empty_role_cache Sample.bob Edge.bob_no_roles eq_refl) as [_ Hrem].
  split; [exact (proj1 (Hadd eq_refl)) | exact (proj1 (Hrem eq_refl))].
Defined.

(** ** An update and its opposite *)

Lemma names_fires c e :
  eventName <$> fires c e = if c then [eventName e] else [].
Proof. by destruct c. Qed.

Lemma mirror_if (c : bool) (n : string) :
  mirror <$> (if c then [n] else []) = if c then [mirror n] else [].
Proof. by destruct c. Qed.

Lemma strictNe_sym `{EqDecision A} (a b : A) : (a !== b) = (b !== a).
Proof. unfold strictNe. apply bool_decide_ext. naive_solver. Qed.

Lemma swap_pairs {A} (b1 b2 r3 r4 n5 n6 a7 a8 a9 : list A) :
  b1 ++ b2 ++ r3 ++ r4 ++ n5 ++ n6 ++ a7 ++ a8 ++ a9
  ≡ₚ b2 ++ b1 ++ r4 ++ r3 ++ n5 ++ n6 ++ a9 ++ a8 ++ a7.
Proof.
  rewrite (Permutation_app_swap_app b1 b2). do 2 f_equiv.
  rewrite (Permutation_app_swap_app r3 r4). do 4 f_equiv.
  rewrite (Permutation_app_swap_app a7 a8), (Permutation_app_comm a7 a9).
  by rewrite (Permutation_app_swap_app a8 a9).
Qed.

Lemma changes_mirror oldMember newMember :
  eventName <$> changes oldMember newMember
  ≡ₚ mirror <$> (eventName <$> changes newMember oldMember).
Proof.
  unfold changes, addedRoles, removedRoles.
  rewrite !fmap_app, !names_fires, !mirror_if, <-!list_fmap_compose.
  rewrite (andb_comm (negb (toBoolean (premiumSince newMember)))).
  rewrite (andb_comm (toBoolean (premiumSince newMember))).
  rewrite (andb_comm (negb (toBoolean (avatar newMember)))).
  rewrite (andb_comm (toBoolean (avatar newMember))).
  rewrite (strictNe_sym (nickname newMember)), (strictNe_sym (pending newMember)),
          (strictNe_sym (avatar newMember)).
  apply swap_pairs.
Qed.

(** Undoing an update gives the mirror events: for two members that are not
    partials, the names emitted for (old, new) are, up to their order, those
    emitted for (new, old) with boost and unboost, role added and role removed,
    avatar added and avatar removed exchanged. *)
Theorem opposite_update_mirrors oldMember newMember :
  partial oldMember = false →
  partial newMember = false →
  eventName <$> invocation oldMember newMember
  ≡ₚ mirror <$> (eventName <$> invocation newMember oldMember).
Proof.
  intros Hold Hnew. rewrite !invocation_emissions.
  pose proof (changes_mirror oldMember newMember) as Hperm.
  destruct (decide (changes oldMember newMember = [])) as [Hnil|Hne].
  - rewrite Hnil in Hperm. symmetry in Hperm. apply Permutation_nil_r in Hperm.
    do 2 apply fmap_nil_inv in Hperm.
    by rewrite !emissions_unchanged.
  - assert (changes newMember oldMember ≠ []) as Hne'.
    { intros Hnil. rewrite Hnil in Hperm. by apply Permutation_nil_r in Hperm as ?%fmap_nil_inv. }
    by rewrite !emissions_changes.
Qed.

Lemma opposite_update_mirrors_witness :
  partial Sample.bob = false
  ∧ partial Sample.bob_roles_BC = false
  ∧ eventName <$> invocation Sample.bob Sample.bob_roles_BC
    = ["guildMemberRoleAdd"; "guildMemberRoleRemove"]
  ∧ eventName <$> invocation Sample.bob Sample.bob_roles_BC
    ≡ₚ mirror <$> (eventName <$> invocation Sample.bob_roles_BC Sample.bob).
Proof.
  do 3 (split; [reflexivity|]).
  exact (opposite_update_mirrors Sample.bob Sample.bob_roles_BC eq_refl eq_refl).
Defined.

(** ** The flag [emitted] *)

(** The invariant behind the fallback rule: whatever the log and the flag are
    when the field checks start, the checks leave the earlier log in place and
    append to it, they never lower [emitted], and they raise it exactly when
    they append something. *)
Theorem checks_keep_flag oldMember newMember (s : Frame) :
  let s' := (fieldChecks oldMember newMember s).2 in
  client s `prefix_of` client s'
  ∧ (emitted s = true → emitted s' = true)
  ∧ (emitted s' = true ↔ emitted s = true ∨ length (client s) < length (client s')).
Proof.
  cbv zeta. rewrite (fieldChecks_appends oldMember newMember s). cbn.
  split; [by apply prefix_app_r|].
  rewrite List.length_app. case_bool_decide as Hseg.
  - destruct (changes oldMember newMember); [done|]. cbn.
    rewrite orb_true_r. split; [done|]. split; [right; lia | done].
  - rewrite Hseg, orb_false_r. cbn. split; [done|].
    split; [auto | intros [?|?]; [done | lia]].
Qed.

Lemma checks_keep_flag_witness :
  emitted (fieldChecks Sample.bob Sample.bob_pending
             {| client := [fallback Sample.bob Sample.bob]; emitted := false |}).2
  = true.
Proof.
  destruct (checks_keep_flag Sample.bob Sample.bob_pending
              {| client := [fallback Sample.bob Sample.bob]; emitted := false |})
    as (_ & _ & Hraised).
  apply Hraised. right. vm_compute. lia.
Defined.
